(** * glmmPen: the exponential-family kernels of [src/utility_glm.cpp]

    A shallow embedding of the IRLS helper functions [initial_mu],
    [muvalid], [mu_adjust], [dlink], [linkfun], [invlink] and [varfun],
    and the properties of them that the specification states.

    Modelling choices.
    - A C++ [double] is a real number ([R]): arithmetic is exact, there is
      no rounding, no infinity and no NaN.  [log] and [exp] are [ln] and
      [exp] of the real-number library; [ln] is used below only at positive
      arguments, where it is the logarithm.
    - An [arma::vec] is a [list double]; [v(i)] and [v[i]] are list lookup,
      [v(i) = x] is list insert.  An index outside the vector ends the call
      with [Fault] (Armadillo's bounds error, or undefined behaviour for the
      unchecked [operator[]]).
    - [arma::vec v(N)] allocates without a defined content; the content that
      happens to be in the fresh cells is a parameter, [uninit].
    - [Rcpp::stop(msg)] ends the call with [Stop msg].
    - A [const char*] family tag is a [string]; [std::strcmp(a, b) == 0] is
      string equality.  The [int] link code is a [Z]. *)

From Stdlib Require Import Reals Lra ZArith.
From stdpp Require Import base list strings.

Open Scope R_scope.

(** ** Outcomes of a call *)

Inductive result (A : Type) : Type :=
  | Ok (a : A)
  | Stop (msg : string)
  | Fault.
Arguments Ok {A} a.
Arguments Stop {A} msg.
Arguments Fault {A}.

#[global] Instance result_ret : MRet result := fun A a => Ok a.
#[global] Instance result_bind : MBind result := fun A B f m =>
  match m with
  | Ok a => f a
  | Stop msg => Stop msg
  | Fault => Fault
  end.

(** ** Doubles and vectors *)

Abbreviation double := R.
Abbreviation vec := (list R).

Definition dlt (x y : double) : bool := if Rlt_dec x y then true else false.
Definition dgt (x y : double) : bool := if Rgt_dec x y then true else false.
Definition dle (x y : double) : bool := if Rle_dec x y then true else false.

(** A C++ [bool] stored into a [double] cell. *)
Definition of_bool (b : bool) : double := if b then 1 else 0.

(** [v(i)] read and [v(i) = x] write. *)
Definition at_ (v : vec) (i : nat) : result double :=
  match v !! i with
  | Some x => Ok x
  | None => Fault
  end.

Definition set_at (v : vec) (i : nat) (x : double) : result vec :=
  if bool_decide (i < length v)%nat then Ok (<[i := x]> v) else Fault.

(** [for (i = 0; i < N; i++) body], threading the vector that the body
    writes to. *)
Fixpoint loop_from (body : nat -> vec -> result vec) (i n : nat) (acc : vec)
  : result vec :=
  match n with
  | O => Ok acc
  | S n' => acc' ← body i acc; loop_from body (S i) n' acc'
  end.

Definition for_loop (N : nat) (body : nat -> vec -> result vec) (acc : vec)
  : result vec :=
  loop_from body 0 N acc.

(** Armadillo's element-wise operators on vectors of one length. *)
Definition vzip (f : double -> double -> double) (a b : vec) : vec :=
  zip_with f a b.

Definition vadd : vec -> vec -> vec := vzip Rplus.
Definition vsub : vec -> vec -> vec := vzip Rminus.
Definition vmul : vec -> vec -> vec := vzip Rmult.
Definition vdiv : vec -> vec -> vec := vzip Rdiv.
Definition vneg (a : vec) : vec := fmap Ropp a.
Definition vlog (a : vec) : vec := fmap ln a.
Definition vexp (a : vec) : vec := fmap exp a.

(** [v.ones()] and [v.zeros()] overwrite every cell. *)
Definition ones (v : vec) : vec := fmap (fun _ => 1) v.
Definition zeros (v : vec) : vec := fmap (fun _ => 0) v.

(** ** The family tags and the messages *)

Definition bin : string := "binomial".
Definition pois : string := "poisson".
Definition gaus : string := "gaussian".
Definition Gamma : string := "Gamma".

Definition strcmp0 (a b : string) : bool := String.eqb a b.

Definition newline : string := String (Ascii.ascii_of_nat 10) EmptyString.

Definition msg_binomial_negative : string :=
  "negative values not allowed for the Binomial family".
Definition msg_binomial_large : string :=
  "# of success is larger than 1".
Definition msg_poisson_negative : string :=
  "negative values not allowed for the Poisson family".
Definition msg_gamma_nonpositive : string :=
  "non-poistive values not allowed for the Gamma family".
Definition msg_invalid_family : string :=
  "invalid family " +:+ newline.

(** ** The kernels *)

Section Kernels.

(** What a freshly allocated vector holds: [uninit name k] is the content of
    cell [k] of the local variable [name] before its first write. *)
Variable uninit : string -> nat -> double.

Definition alloc (name : string) (N : nat) : vec :=
  fmap (uninit name) (seq 0 N).

Definition initial_mu (family : string) (y : vec) (N : nat) : result vec :=
  let mu := alloc "mu" N in
  if strcmp0 family bin then
    for_loop N (fun i mu =>
      yi ← at_ y i;
      if dlt yi 0 then Stop msg_binomial_negative
      else if dgt yi 1 then Stop msg_binomial_large
      else set_at mu i ((yi + 5/10) / (1 + 1))) mu
  else if strcmp0 family pois then
    for_loop N (fun i mu =>
      yi ← at_ y i;
      if dlt yi 0 then Stop msg_poisson_negative
      else set_at mu i (yi + 1/10)) mu
  else if strcmp0 family gaus then
    for_loop N (fun i mu =>
      yi ← at_ y i;
      set_at mu i yi) mu
  else if strcmp0 family Gamma then
    for_loop N (fun i mu =>
      yi ← at_ y i;
      if dle yi 0 then Stop msg_gamma_nonpositive
      else set_at mu i (yi + 1/10)) mu
  else Ok mu.

Definition muvalid (family : string) (mu : vec) : result vec :=
  let minb := 1/10000 in
  let maxb := 9999/10000 in
  let minp := 1/10000 in
  let gammaMin := 1/1000 in
  let N := length mu in
  let valid := alloc "valid" N in
  if strcmp0 family bin then
    for_loop N (fun i valid =>
      x ← at_ mu i;
      set_at valid i (of_bool (dgt x minb && dlt x maxb))) valid
  else if strcmp0 family pois then
    for_loop N (fun i valid =>
      x ← at_ mu i;
      set_at valid i (of_bool (dgt x minp))) valid
  else if strcmp0 family gaus then
    for_loop N (fun i valid => set_at valid i 1) valid
  else if strcmp0 family Gamma then
    for_loop N (fun i valid =>
      x ← at_ mu i;
      set_at valid i (of_bool (dgt x gammaMin))) valid
  else Stop msg_invalid_family.

Definition mu_adjust (family : string) (mu : vec) : result vec :=
  let minb := 1/1000 in
  let maxb := 999/1000 in
  let minp := 1/1000 in
  let gammaMin := 1/1000 in
  let N := length mu in
  let mu_new := mu in
  if strcmp0 family bin then
    for_loop N (fun i mu_new =>
      x ← at_ mu i;
      if dlt x minb then set_at mu_new i minb
      else if dgt x maxb then set_at mu_new i maxb
      else Ok mu_new) mu_new
  else if strcmp0 family pois then
    for_loop N (fun i mu_new =>
      x ← at_ mu i;
      if dlt x minp then set_at mu_new i minp else Ok mu_new) mu_new
  else if strcmp0 family Gamma then
    for_loop N (fun i mu_new =>
      x ← at_ mu i;
      if dlt x gammaMin then set_at mu_new i gammaMin else Ok mu_new) mu_new
  else if strcmp0 family gaus then
    Ok mu
  else Stop msg_invalid_family.

Definition dlink (link : Z) (mu : vec) : vec :=
  let N := length mu in
  let out := alloc "out" N in
  let ones_vec := ones out in
  let zeros_vec := zeros (ones out) in
  match link with
  | 10%Z => vdiv ones_vec (vmul mu (vsub ones_vec mu))
  | 11%Z => zeros_vec
  | 12%Z => vdiv ones_vec (vmul (vlog (vsub ones_vec mu)) (vsub ones_vec mu))
  | 20%Z => vdiv ones_vec mu
  | 30%Z => ones_vec
  | 40%Z => vsub zeros_vec (vdiv ones_vec (vmul mu mu))
  | _ => zeros_vec
  end.

Definition linkfun (link : Z) (mu : vec) : vec :=
  let N := length mu in
  let out := alloc "out" N in
  let ones_vec := ones out in
  match link with
  | 10%Z => vlog (vdiv mu (vsub ones_vec mu))
  | 11%Z => zeros (ones out)
  | 12%Z => vlog (vmul (vneg ones_vec) (vlog (vsub ones_vec mu)))
  | 20%Z => vlog mu
  | 30%Z => mu
  | 40%Z => vdiv ones_vec mu
  | _ => zeros (ones out)
  end.

Definition invlink (link : Z) (eta : vec) : vec :=
  let N := length eta in
  let empty := alloc "empty" N in
  let ones_vec := ones empty in
  let zeros_vec := zeros (ones empty) in
  match link with
  | 10%Z => vdiv (vexp eta) (vadd ones_vec (vexp eta))
  | 11%Z => zeros_vec
  | 12%Z => vsub ones_vec (vexp (vsub zeros_vec (vmul ones_vec (vexp eta))))
  | 20%Z => vexp eta
  | 30%Z => eta
  | 40%Z => vsub zeros_vec (vdiv ones_vec eta)
  | _ => zeros_vec
  end.

Definition varfun (family : string) (mu : vec) : result vec :=
  let N := length mu in
  let V := alloc "V" N in
  let empty := alloc "empty" N in
  let ones_vec := ones empty in
  if strcmp0 family bin then Ok (vmul mu (vsub ones_vec mu))
  else if strcmp0 family pois then Ok mu
  else if strcmp0 family gaus then Ok ones_vec
  else if strcmp0 family Gamma then Ok (vmul mu mu)
  else Stop msg_invalid_family.

End Kernels.

(** ** Reading results element by element *)

(** The four tags that the kernels recognise. *)
Definition recognized (family : string) : Prop :=
  family = bin \/ family = pois \/ family = gaus \/ family = Gamma.

(** A cell of a validity vector is true when it holds a non-zero double. *)
Definition cell_true (v : double) : Prop := v <> 0.

(** The scalar that each kernel of the link triad computes in one cell. *)
Definition linkfun_elt (link : Z) (x : double) : double :=
  match link with
  | 10%Z => ln (x / (1 - x))
  | 12%Z => ln (- (1) * ln (1 - x))
  | 20%Z => ln x
  | 30%Z => x
  | 40%Z => 1 / x
  | _ => 0
  end.

Definition dlink_elt (link : Z) (x : double) : double :=
  match link with
  | 10%Z => 1 / (x * (1 - x))
  | 12%Z => 1 / (ln (1 - x) * (1 - x))
  | 20%Z => 1 / x
  | 30%Z => 1
  | 40%Z => 0 - 1 / (x * x)
  | _ => 0
  end.

Definition invlink_elt (link : Z) (e : double) : double :=
  match link with
  | 10%Z => exp e / (1 + exp e)
  | 12%Z => 1 - exp (0 - 1 * exp e)
  | 20%Z => exp e
  | 30%Z => e
  | 40%Z => 0 - 1 / e
  | _ => 0
  end.

(** The cell that [mu_adjust] and [muvalid] compute for each family. *)
Definition adjust_binomial (x : double) : double :=
  if dlt x (1/1000) then 1/1000
  else if dgt x (999/1000) then 999/1000 else x.

Definition adjust_low (x : double) : double :=
  if dlt x (1/1000) then 1/1000 else x.

Definition valid_binomial (x : double) : double :=
  of_bool (dgt x (1/10000) && dlt x (9999/10000)).

Definition valid_poisson (x : double) : double := of_bool (dgt x (1/10000)).

Definition valid_gamma (x : double) : double := of_bool (dgt x (1/1000)).

(** The cell that [initial_mu] computes from an accepted response. *)
Definition start_binomial (x : double) : double := (x + 5/10) / (1 + 1).
Definition start_shifted (x : double) : double := x + 1/10.

(** ** Vocabulary of the properties *)

(** The content of fresh memory used in the concrete runs below. *)
Definition zero_fill : string -> nat -> double := fun _ _ => 0.
Definition one_fill : string -> nat -> double := fun _ _ => 1.

(** [contains needle hay]: the text [needle] occurs in the message [hay]. *)
Definition contains (needle hay : string) : bool :=
  match String.index 0 needle hay with
  | Some _ => true
  | None => false
  end.

(** The scalar function that a vector kernel computes in a cell: the kernel
    run on the one-element vector [x]. *)
Definition cell_fun (kernel : vec -> vec) (x : double) : double :=
  default 0 (head (kernel [x])).

(** [valid] flags the cells of [mu] that satisfy [P]. *)
Definition flags_by (P : double -> Prop) (mu valid : vec) : Prop :=
  Forall2 (fun x v => (v = 1 \/ v = 0) /\ (cell_true v <-> P x)) mu valid.

(** [o] is [x] clamped into the closed range from [lo] to [hi], and [x]
    clamped from below at [lo]. *)
Definition clamped_into (lo hi x o : double) : Prop :=
  (x < lo -> o = lo) /\ (hi < x -> o = hi) /\ (lo <= x <= hi -> o = x).

Definition clamped_low (lo x o : double) : Prop :=
  (x < lo -> o = lo) /\ (lo <= x -> o = x).

(** Every cell that [mu_adjust] changed passes [muvalid] afterwards. *)
Definition clamped_cells_valid (uninit : string -> nat -> double)
  (family : string) (mu : vec) : Prop :=
  exists adj valid : vec,
    mu_adjust family mu = Ok adj /\
    muvalid uninit family adj = Ok valid /\
    length valid = length mu /\
    forall i x a, mu !! i = Some x -> adj !! i = Some a -> a <> x ->
      exists v, valid !! i = Some v /\ cell_true v.

(** The responses that [initial_mu] accepts for a family. *)
Definition response_ok (family : string) (x : double) : Prop :=
  (family = bin /\ 0 <= x <= 1) \/ (family = pois /\ 0 <= x) \/
  family = gaus \/ (family = Gamma /\ 0 < x).

(** What [initial_mu] does with one response of a recognised family: the
    message it stops with, or the cell it stores. *)
Definition check_response (family : string) (x : double) : result double :=
  if strcmp0 family bin then
    if dlt x 0 then Stop msg_binomial_negative
    else if dgt x 1 then Stop msg_binomial_large
    else Ok ((x + 5/10) / (1 + 1))
  else if strcmp0 family pois then
    if dlt x 0 then Stop msg_poisson_negative else Ok (x + 1/10)
  else if strcmp0 family gaus then Ok x
  else if dle x 0 then Stop msg_gamma_nonpositive else Ok (x + 1/10).

(** The body of the loops of [initial_mu]: read [y[i]], check, store. *)
Definition check_store (family : string) (y : vec) (i : nat) (mu : vec)
  : result vec :=
  yi ← at_ y i; v ← check_response family yi; set_at mu i v.

(** Every cell of the vector that [mu_adjust] returns passes [muvalid]. *)
Definition adjusted_all_valid (uninit : string -> nat -> double)
  (family : string) (mu : vec) : Prop :=
  exists adj valid : vec,
    mu_adjust family mu = Ok adj /\
    muvalid uninit family adj = Ok valid /\
    length valid = length mu /\
    Forall cell_true valid.

(** * Proofs *)

(** ** Comparisons *)

Lemma dlt_true x y : dlt x y = true <-> x < y.
Proof. unfold dlt. destruct (Rlt_dec x y); intuition congruence. Qed.

Lemma dgt_true x y : dgt x y = true <-> x > y.
Proof. unfold dgt. destruct (Rgt_dec x y); intuition congruence. Qed.

Lemma dle_true x y : dle x y = true <-> x <= y.
Proof. unfold dle. destruct (Rle_dec x y); intuition congruence. Qed.

Lemma dlt_false x y : dlt x y = false <-> y <= x.
Proof. unfold dlt. destruct (Rlt_dec x y); split; intros; try congruence; lra. Qed.

Lemma dgt_false x y : dgt x y = false <-> x <= y.
Proof. unfold dgt. destruct (Rgt_dec x y); split; intros; try congruence; lra. Qed.

Lemma dle_false x y : dle x y = false <-> y < x.
Proof. unfold dle. destruct (Rle_dec x y); split; intros; try congruence; lra. Qed.

Lemma cell_true_of_bool b : cell_true (of_bool b) <-> b = true.
Proof. unfold cell_true. destruct b; simpl; split; intros; try congruence; lra. Qed.

(** Settles a comparison between two constant or hypothesis-bounded doubles. *)
Ltac cmp :=
  repeat match goal with
  | |- context [dlt ?x ?y] =>
      let E := fresh "E" in
      destruct (dlt x y) eqn:E;
      [apply dlt_true in E | apply dlt_false in E]
  | |- context [dgt ?x ?y] =>
      let E := fresh "E" in
      destruct (dgt x y) eqn:E;
      [apply dgt_true in E | apply dgt_false in E]
  | |- context [dle ?x ?y] =>
      let E := fresh "E" in
      destruct (dle x y) eqn:E;
      [apply dle_true in E | apply dle_false in E]
  end.

(** ** The loop *)

Lemma at_Some (v : vec) i x : v !! i = Some x -> at_ v i = Ok x.
Proof. unfold at_. now intros ->. Qed.

Lemma set_at_Some (v : vec) i d x :
  v !! i = Some d -> set_at v i x = Ok (<[i := x]> v).
Proof.
  intros H. unfold set_at. apply lookup_lt_Some in H.
  now rewrite bool_decide_eq_true_2.
Qed.

(** A loop whose body rewrites cell [j] and nothing else rewrites the cells
    [i .. i+n-1] and nothing else. *)
Lemma loop_from_cells (F : nat -> double -> double) body n :
  forall i (acc : vec),
  (i + n <= length acc)%nat ->
  (forall j d (acc' : vec), (i <= j < i + n)%nat -> acc' !! j = Some d ->
     body j acc' = Ok (<[j := F j d]> acc')) ->
  exists acc' : vec,
    loop_from body i n acc = Ok acc' /\ length acc' = length acc /\
    forall j d, acc !! j = Some d ->
      acc' !! j = Some (if bool_decide (i <= j < i + n)%nat then F j d else d).
Proof.
  induction n as [|n IH]; intros i acc Hlen Hbody.
  - exists acc. split; [reflexivity|]. split; [reflexivity|].
    intros j d Hj. rewrite bool_decide_eq_false_2 by lia. exact Hj.
  - destruct (lookup_lt_is_Some_2 acc i) as [d0 Hd0]; [lia|].
    cbn [loop_from]. rewrite (Hbody i d0 acc) by (auto; lia). cbn.
    destruct (IH (S i) (<[i := F i d0]> acc)) as (acc' & Hrun & Hl & Hcells).
    + rewrite length_insert. lia.
    + intros j d acc'' Hj Hd. apply Hbody; [lia | exact Hd].
    + exists acc'. split; [exact Hrun|]. rewrite length_insert in Hl.
      split; [exact Hl|]. intros j d Hj.
      destruct (decide (i = j)) as [<-|Hne].
      * assert (d = d0) as -> by congruence.
        rewrite (Hcells i (F i d0)).
        -- rewrite bool_decide_eq_false_2 by lia.
           now rewrite bool_decide_eq_true_2 by lia.
        -- apply list_lookup_insert_eq. lia.
      * rewrite (Hcells j d) by (now rewrite list_lookup_insert_ne).
        apply lookup_lt_Some in Hj.
        destruct (decide (S i <= j < S i + n)%nat).
        -- rewrite !bool_decide_eq_true_2 by lia. reflexivity.
        -- rewrite !bool_decide_eq_false_2 by lia. reflexivity.
Qed.

(** The loops of this file read cell [j] of a source vector and rewrite cell
    [j] of a destination of the same length. *)
Lemma for_loop_zip (g : double -> double -> double) (src dst : vec) body :
  length dst = length src ->
  (forall j x d (acc : vec), src !! j = Some x -> acc !! j = Some d ->
     body j acc = Ok (<[j := g x d]> acc)) ->
  for_loop (length src) body dst = Ok (zip_with g src dst).
Proof.
  intros Hlen Hbody. unfold for_loop.
  destruct (loop_from_cells (fun j d => g (default 0 (src !! j)) d)
              body (length src) 0%nat dst) as (acc' & -> & Hl & Hcells).
  - lia.
  - intros j d acc' Hj Hd.
    destruct (lookup_lt_is_Some_2 src j) as [x Hx]; [lia|].
    rewrite (Hbody j x d acc' Hx Hd). now rewrite Hx.
  - f_equal. apply list_eq. intros j. rewrite lookup_zip_with.
    destruct (dst !! j) as [d|] eqn:Hd.
    + rewrite (Hcells j d Hd).
      pose proof (lookup_lt_Some _ _ _ Hd) as Hlt.
      destruct (lookup_lt_is_Some_2 src j) as [x Hx]; [lia|].
      rewrite Hx. cbn. now rewrite bool_decide_eq_true_2 by lia.
    + apply lookup_ge_None in Hd.
      rewrite (lookup_ge_None_2 acc') by lia.
      destruct (src !! j); reflexivity.
Qed.

(** A loop stops with the message of the first body that stops. *)
Lemma loop_from_stop (P : string -> Prop) body n :
  forall i (acc : vec),
  (forall j (acc' : vec), (i <= j < i + n)%nat -> length acc' = length acc ->
     (exists acc'' : vec, body j acc' = Ok acc'' /\ length acc'' = length acc')
     \/ (exists msg, body j acc' = Stop msg /\ P msg)) ->
  (exists k, (i <= k < i + n)%nat /\
     forall acc' : vec, length acc' = length acc ->
       exists msg, body k acc' = Stop msg) ->
  exists msg, loop_from body i n acc = Stop msg /\ P msg.
Proof.
  induction n as [|n IH]; intros i acc Hbody (k & Hk & Hstop); [lia|].
  cbn [loop_from].
  destruct (Hbody i acc) as [(acc1 & Hrun & Hl)|(msg & Hrun & HP)];
    [lia | reflexivity | | ].
  - rewrite Hrun. cbn.
    destruct (decide (k = i)) as [->|Hne].
    + destruct (Hstop acc eq_refl) as (msg & Hmsg). congruence.
    + apply IH.
      * intros j acc' Hj Hlen. apply Hbody; [lia | congruence].
      * exists k. split; [lia|]. intros acc' Hlen. apply Hstop. congruence.
  - rewrite Hrun. cbn. eauto.
Qed.

(** ** Vectors built from one vector, cell by cell *)

Lemma length_alloc uninit name N : length (alloc uninit name N) = N.
Proof. unfold alloc. now rewrite length_fmap, length_seq. Qed.

Lemma fmap_const_same_length {A B : Type} (c : double) (l : list A) (k : list B) :
  length l = length k -> (fun _ => c) <$> l = (fun _ => c) <$> k.
Proof.
  revert k. induction l as [|a l IH]; intros [|b k] H; try discriminate.
  - reflexivity.
  - cbn. f_equal. apply IH. now injection H.
Qed.

Lemma ones_alloc uninit name (mu : vec) :
  ones (alloc uninit name (length mu)) = (fun _ => 1) <$> mu.
Proof. apply fmap_const_same_length. apply length_alloc. Qed.

Lemma zeros_ones_alloc uninit name (mu : vec) :
  zeros (ones (alloc uninit name (length mu))) = (fun _ => 0) <$> mu.
Proof.
  unfold zeros, ones. rewrite <- list_fmap_compose.
  apply fmap_const_same_length. apply length_alloc.
Qed.

Lemma vzip_fmap (f : double -> double -> double) (g h : double -> double)
  (l : vec) :
  vzip f (g <$> l) (h <$> l) = (fun x => f (g x) (h x)) <$> l.
Proof.
  unfold vzip. rewrite zip_with_fmap_l, zip_with_fmap_r.
  now rewrite zip_with_diag.
Qed.

Lemma vzip_fmap_l (f : double -> double -> double) (g : double -> double)
  (l : vec) :
  vzip f (g <$> l) l = (fun x => f (g x) x) <$> l.
Proof. unfold vzip. now rewrite zip_with_fmap_l, zip_with_diag. Qed.

Lemma vzip_fmap_r (f : double -> double -> double) (h : double -> double)
  (l : vec) :
  vzip f l (h <$> l) = (fun x => f x (h x)) <$> l.
Proof. unfold vzip. now rewrite zip_with_fmap_r, zip_with_diag. Qed.

Lemma vzip_diag (f : double -> double -> double) (l : vec) :
  vzip f l l = (fun x => f x x) <$> l.
Proof. apply zip_with_diag. Qed.

Lemma fmap_fmap (g h : double -> double) (l : vec) :
  g <$> (h <$> l) = (fun x => g (h x)) <$> l.
Proof. now rewrite <- list_fmap_compose. Qed.

(** Rewrites an expression over Armadillo operators into one [fmap]. *)
Ltac cellwise :=
  unfold vadd, vsub, vmul, vdiv, vneg, vlog, vexp;
  repeat first
    [ rewrite zeros_ones_alloc | rewrite ones_alloc
    | rewrite vzip_fmap | rewrite vzip_fmap_l | rewrite vzip_fmap_r
    | rewrite vzip_diag | rewrite fmap_fmap ].

(** Splits a link code into the cases of the [switch]. *)
Ltac switch_cases link :=
  cbn beta iota zeta; destruct link as [|link|link]; cbn beta iota;
  repeat match goal with
  | |- context [match ?p with xI _ => _ | xO _ => _ | xH => _ end] =>
      is_var p; destruct p; cbn beta iota
  end.

Section LinkCells.

Variable uninit : string -> nat -> double.

Lemma linkfun_cells link (mu : vec) :
  linkfun uninit link mu = linkfun_elt link <$> mu.
Proof.
  unfold linkfun, linkfun_elt.
  switch_cases link; cellwise; try reflexivity.
  symmetry. apply list_fmap_id.
Qed.

Lemma dlink_cells link (mu : vec) :
  dlink uninit link mu = dlink_elt link <$> mu.
Proof.
  unfold dlink, dlink_elt.
  switch_cases link; cellwise; reflexivity.
Qed.

Lemma invlink_cells link (eta : vec) :
  invlink uninit link eta = invlink_elt link <$> eta.
Proof.
  unfold invlink, invlink_elt.
  switch_cases link; cellwise; try reflexivity.
  symmetry. apply list_fmap_id.
Qed.

End LinkCells.

(** ** The family kernels, cell by cell *)

(** Decides the [strcmp] tests on two literal tags. *)
Ltac tags :=
  repeat match goal with
  | |- context [strcmp0 ?a ?b] =>
      let v := eval vm_compute in (strcmp0 a b) in
      change (strcmp0 a b) with v
  end;
  cbn iota.

Lemma strcmp0_false a b : a <> b -> strcmp0 a b = false.
Proof. intros H. unfold strcmp0. now apply String.eqb_neq. Qed.

Lemma zip_with_const_r (f : double -> double) (src dst : vec) :
  length dst = length src ->
  zip_with (fun x _ => f x) src dst = f <$> src.
Proof.
  revert dst. induction src as [|x src IH]; intros [|d dst] H;
    try discriminate; cbn; [reflexivity|].
  f_equal. apply IH. now injection H.
Qed.

(** A loop that stores [f (src(i))] into cell [i] of a fresh vector. *)
Lemma for_loop_fill (f : double -> double) (src dst : vec) body :
  length dst = length src ->
  (forall j x d (acc : vec), src !! j = Some x -> acc !! j = Some d ->
     body j acc = Ok (<[j := f x]> acc)) ->
  for_loop (length src) body dst = Ok (f <$> src).
Proof.
  intros Hlen Hbody.
  rewrite (for_loop_zip (fun x _ => f x) src dst body Hlen Hbody).
  now rewrite zip_with_const_r.
Qed.


Section FamilyCells.

Variable uninit : string -> nat -> double.

Lemma muvalid_binomial (mu : vec) :
  muvalid uninit bin mu = Ok (valid_binomial <$> mu).
Proof.
  unfold muvalid. tags. apply for_loop_fill; [apply length_alloc|].
  intros j x d acc Hx Hd. rewrite (at_Some _ _ _ Hx). cbn.
  apply (set_at_Some _ _ _ _ Hd).
Qed.

Lemma muvalid_poisson (mu : vec) :
  muvalid uninit pois mu = Ok (valid_poisson <$> mu).
Proof.
  unfold muvalid. tags. apply for_loop_fill; [apply length_alloc|].
  intros j x d acc Hx Hd. rewrite (at_Some _ _ _ Hx). cbn.
  apply (set_at_Some _ _ _ _ Hd).
Qed.

Lemma muvalid_gaussian (mu : vec) :
  muvalid uninit gaus mu = Ok ((fun _ => 1) <$> mu).
Proof.
  unfold muvalid. tags. apply for_loop_fill; [apply length_alloc|].
  intros j x d acc Hx Hd. apply (set_at_Some _ _ _ _ Hd).
Qed.

Lemma muvalid_gamma (mu : vec) :
  muvalid uninit Gamma mu = Ok (valid_gamma <$> mu).
Proof.
  unfold muvalid. tags. apply for_loop_fill; [apply length_alloc|].
  intros j x d acc Hx Hd. rewrite (at_Some _ _ _ Hx). cbn.
  apply (set_at_Some _ _ _ _ Hd).
Qed.

Lemma muvalid_unknown family (mu : vec) :
  family <> bin -> family <> pois -> family <> gaus -> family <> Gamma ->
  muvalid uninit family mu = Stop msg_invalid_family.
Proof.
  intros Hb Hp Hg HG. unfold muvalid.
  now rewrite !strcmp0_false by assumption.
Qed.

Lemma mu_adjust_binomial (mu : vec) :
  mu_adjust bin mu = Ok (adjust_binomial <$> mu).
Proof.
  unfold mu_adjust. tags.
  rewrite (for_loop_zip
    (fun x d => if dlt x (1/1000) then 1/1000
                else if dgt x (999/1000) then 999/1000 else d) mu mu);
    [now rewrite zip_with_diag | reflexivity |].
  intros j x d acc Hx Hd. rewrite (at_Some _ _ _ Hx). cbn.
  destruct (dlt x (1/1000)); [apply (set_at_Some _ _ _ _ Hd)|].
  destruct (dgt x (999/1000)); [apply (set_at_Some _ _ _ _ Hd)|].
  now rewrite (list_insert_id _ _ _ Hd).
Qed.

Lemma mu_adjust_poisson (mu : vec) :
  mu_adjust pois mu = Ok (adjust_low <$> mu).
Proof.
  unfold mu_adjust. tags.
  rewrite (for_loop_zip
    (fun x d => if dlt x (1/1000) then 1/1000 else d) mu mu);
    [now rewrite zip_with_diag | reflexivity |].
  intros j x d acc Hx Hd. rewrite (at_Some _ _ _ Hx). cbn.
  destruct (dlt x (1/1000)); [apply (set_at_Some _ _ _ _ Hd)|].
  now rewrite (list_insert_id _ _ _ Hd).
Qed.

Lemma mu_adjust_gamma (mu : vec) :
  mu_adjust Gamma mu = Ok (adjust_low <$> mu).
Proof.
  unfold mu_adjust. tags.
  rewrite (for_loop_zip
    (fun x d => if dlt x (1/1000) then 1/1000 else d) mu mu);
    [now rewrite zip_with_diag | reflexivity |].
  intros j x d acc Hx Hd. rewrite (at_Some _ _ _ Hx). cbn.
  destruct (dlt x (1/1000)); [apply (set_at_Some _ _ _ _ Hd)|].
  now rewrite (list_insert_id _ _ _ Hd).
Qed.

Lemma mu_adjust_gaussian (mu : vec) : mu_adjust gaus mu = Ok mu.
Proof. unfold mu_adjust. tags. reflexivity. Qed.

Lemma mu_adjust_unknown family (mu : vec) :
  family <> bin -> family <> pois -> family <> gaus -> family <> Gamma ->
  mu_adjust family mu = Stop msg_invalid_family.
Proof.
  intros Hb Hp Hg HG. unfold mu_adjust.
  now rewrite !strcmp0_false by assumption.
Qed.

Lemma varfun_unknown family (mu : vec) :
  family <> bin -> family <> pois -> family <> gaus -> family <> Gamma ->
  varfun uninit family mu = Stop msg_invalid_family.
Proof.
  intros Hb Hp Hg HG. unfold varfun.
  now rewrite !strcmp0_false by assumption.
Qed.

Lemma initial_mu_unknown family (y : vec) N :
  family <> bin -> family <> pois -> family <> gaus -> family <> Gamma ->
  initial_mu uninit family y N = Ok (alloc uninit "mu" N).
Proof.
  intros Hb Hp Hg HG. unfold initial_mu.
  now rewrite !strcmp0_false by assumption.
Qed.

End FamilyCells.

(** ** [initial_mu], family by family *)


Section InitialMu.

Variable uninit : string -> nat -> double.

Lemma initial_mu_binomial_ok (y : vec) :
  Forall (fun x => 0 <= x <= 1) y ->
  initial_mu uninit bin y (length y) = Ok (start_binomial <$> y).
Proof.
  intros Hy. unfold initial_mu. tags.
  apply for_loop_fill; [apply length_alloc|].
  intros j x d acc Hx Hd. rewrite (at_Some _ _ _ Hx). cbn.
  pose proof (Forall_lookup_1 _ _ _ _ Hy Hx) as Hb. cbn in Hb.
  cmp; try lra. apply (set_at_Some _ _ _ _ Hd).
Qed.

Lemma initial_mu_poisson_ok (y : vec) :
  Forall (fun x => 0 <= x) y ->
  initial_mu uninit pois y (length y) = Ok (start_shifted <$> y).
Proof.
  intros Hy. unfold initial_mu. tags.
  apply for_loop_fill; [apply length_alloc|].
  intros j x d acc Hx Hd. rewrite (at_Some _ _ _ Hx). cbn.
  pose proof (Forall_lookup_1 _ _ _ _ Hy Hx) as Hb. cbn in Hb.
  cmp; try lra. apply (set_at_Some _ _ _ _ Hd).
Qed.

Lemma initial_mu_gaussian_ok (y : vec) :
  initial_mu uninit gaus y (length y) = Ok y.
Proof.
  unfold initial_mu. tags.
  rewrite <- (list_fmap_id y) at 3.
  apply for_loop_fill; [apply length_alloc|].
  intros j x d acc Hx Hd. rewrite (at_Some _ _ _ Hx). cbn.
  apply (set_at_Some _ _ _ _ Hd).
Qed.

Lemma initial_mu_gamma_ok (y : vec) :
  Forall (fun x => 0 < x) y ->
  initial_mu uninit Gamma y (length y) = Ok (start_shifted <$> y).
Proof.
  intros Hy. unfold initial_mu. tags.
  apply for_loop_fill; [apply length_alloc|].
  intros j x d acc Hx Hd. rewrite (at_Some _ _ _ Hx). cbn.
  pose proof (Forall_lookup_1 _ _ _ _ Hy Hx) as Hb. cbn in Hb.
  cmp; try lra. apply (set_at_Some _ _ _ _ Hd).
Qed.

(** The element that makes a loop stop. *)
Lemma Exists_lookup (P : double -> Prop) (y : vec) :
  Exists P y -> exists k x, y !! k = Some x /\ P x.
Proof.
  intros H. apply Exists_exists in H as (x & Hin & HP).
  apply list_elem_of_lookup_1 in Hin as (k & Hk). eauto.
Qed.

Lemma lookup_Exists (P : double -> Prop) (y : vec) k x :
  y !! k = Some x -> P x -> Exists P y.
Proof.
  intros Hk HP. apply Exists_exists. exists x. split; [|exact HP].
  eapply list_elem_of_lookup_2; eauto.
Qed.

Lemma initial_mu_binomial_stop (y : vec) :
  Exists (fun x => x < 0 \/ 1 < x) y ->
  exists msg, initial_mu uninit bin y (length y) = Stop msg /\
    ((msg = msg_binomial_negative /\ Exists (fun x => x < 0) y) \/
     (msg = msg_binomial_large /\ Exists (fun x => 1 < x) y)).
Proof.
  intros Hy. unfold initial_mu, for_loop. tags.
  apply loop_from_stop.
  - intros j acc Hj Hlen. rewrite length_alloc in Hlen.
    destruct (lookup_lt_is_Some_2 y j) as [x Hx]; [lia|].
    destruct (lookup_lt_is_Some_2 acc j) as [d Hd]; [lia|].
    rewrite (at_Some _ _ _ Hx). cbn. cmp.
    + right. eexists. split; [reflexivity|]. left. split; [reflexivity|].
      now apply (lookup_Exists _ _ _ _ Hx).
    + right. eexists. split; [reflexivity|]. right. split; [reflexivity|].
      apply (lookup_Exists _ _ _ _ Hx). lra.
    + left. eexists. split; [apply (set_at_Some _ _ _ _ Hd)|].
      apply length_insert.
  - destruct (Exists_lookup _ _ Hy) as (k & x & Hx & Hbad).
    exists k. split; [apply lookup_lt_Some in Hx; lia|].
    intros acc _. rewrite (at_Some _ _ _ Hx). cbn.
    cmp; eauto. lra.
Qed.

Lemma initial_mu_poisson_stop (y : vec) :
  Exists (fun x => x < 0) y ->
  initial_mu uninit pois y (length y) = Stop msg_poisson_negative.
Proof.
  intros Hy. unfold initial_mu, for_loop. tags.
  destruct (loop_from_stop (fun msg => msg = msg_poisson_negative)
    (fun i mu => yi ← at_ y i;
       if dlt yi 0 then Stop msg_poisson_negative
       else set_at mu i (yi + 1/10))
    (length y) 0%nat (alloc uninit "mu" (length y))) as (msg & Hrun & ->);
    [ | | exact Hrun].
  - intros j acc Hj Hlen. rewrite length_alloc in Hlen.
    destruct (lookup_lt_is_Some_2 y j) as [x Hx]; [lia|].
    destruct (lookup_lt_is_Some_2 acc j) as [d Hd]; [lia|].
    rewrite (at_Some _ _ _ Hx). cbn. cmp.
    + right. eauto.
    + left. eexists. split; [apply (set_at_Some _ _ _ _ Hd)|].
      apply length_insert.
  - destruct (Exists_lookup _ _ Hy) as (k & x & Hx & Hbad).
    exists k. split; [apply lookup_lt_Some in Hx; lia|].
    intros acc _. rewrite (at_Some _ _ _ Hx). cbn.
    cmp; eauto. lra.
Qed.

Lemma initial_mu_gamma_stop (y : vec) :
  Exists (fun x => x <= 0) y ->
  initial_mu uninit Gamma y (length y) = Stop msg_gamma_nonpositive.
Proof.
  intros Hy. unfold initial_mu, for_loop. tags.
  destruct (loop_from_stop (fun msg => msg = msg_gamma_nonpositive)
    (fun i mu => yi ← at_ y i;
       if dle yi 0 then Stop msg_gamma_nonpositive
       else set_at mu i (yi + 1/10))
    (length y) 0%nat (alloc uninit "mu" (length y))) as (msg & Hrun & ->);
    [ | | exact Hrun].
  - intros j acc Hj Hlen. rewrite length_alloc in Hlen.
    destruct (lookup_lt_is_Some_2 y j) as [x Hx]; [lia|].
    destruct (lookup_lt_is_Some_2 acc j) as [d Hd]; [lia|].
    rewrite (at_Some _ _ _ Hx). cbn. cmp.
    + right. eauto.
    + left. eexists. split; [apply (set_at_Some _ _ _ _ Hd)|].
      apply length_insert.
  - destruct (Exists_lookup _ _ Hy) as (k & x & Hx & Hbad).
    exists k. split; [apply lookup_lt_Some in Hx; lia|].
    intros acc _. rewrite (at_Some _ _ _ Hx). cbn.
    cmp; eauto. lra.
Qed.

End InitialMu.

(** ** The link triad on one cell *)

Lemma ln_neg (u : double) : 0 < u < 1 -> ln u < 0.
Proof. intros [H0 H1]. rewrite <- ln_1. now apply ln_increasing. Qed.

Lemma roundtrip_logit (x : double) :
  0 < x < 1 -> invlink_elt 10 (linkfun_elt 10 x) = x.
Proof.
  intros [H0 H1]. cbn.
  assert (Hq : 0 < x / (1 - x)) by (apply Rdiv_lt_0_compat; lra).
  rewrite (exp_ln _ Hq). field. lra.
Qed.

Lemma roundtrip_cloglog (x : double) :
  0 < x < 1 -> invlink_elt 12 (linkfun_elt 12 x) = x.
Proof.
  intros [H0 H1]. cbn.
  assert (Hl : ln (1 - x) < 0) by (apply ln_neg; lra).
  rewrite exp_ln by lra.
  replace (0 - 1 * (- (1) * ln (1 - x))) with (ln (1 - x)) by ring.
  rewrite exp_ln by lra. ring.
Qed.

Lemma roundtrip_log (x : double) :
  0 < x -> invlink_elt 20 (linkfun_elt 20 x) = x.
Proof. intros H0. cbn. now apply exp_ln. Qed.

Lemma roundtrip_identity (x : double) :
  invlink_elt 30 (linkfun_elt 30 x) = x.
Proof. reflexivity. Qed.

(** The inverse link comes back with the sign changed. *)
Lemma roundtrip_inverse (x : double) :
  x <> 0 -> invlink_elt 40 (linkfun_elt 40 x) = - x.
Proof. intros H0. cbn. now field. Qed.

Lemma dlink_logit (x : double) :
  0 < x < 1 -> derivable_pt_lim (linkfun_elt 10) x (dlink_elt 10 x).
Proof.
  intros [H0 H1].
  assert (Hin : derivable_pt_lim (id / (fct_cte 1 - id))%F x
                  ((1 * (1 - x) - (0 - 1) * x) / Rsqr (1 - x))).
  { apply (derivable_pt_lim_div id (fct_cte 1 - id)%F x 1 (0 - 1)).
    - apply derivable_pt_lim_id.
    - apply derivable_pt_lim_minus;
        [apply derivable_pt_lim_const | apply derivable_pt_lim_id].
    - unfold minus_fct, fct_cte, id. lra. }
  assert (Hout : derivable_pt_lim ln ((id / (fct_cte 1 - id))%F x)
                   (/ (x / (1 - x)))).
  { apply derivable_pt_lim_ln. unfold div_fct, minus_fct, fct_cte, id.
    apply Rdiv_lt_0_compat; lra. }
  pose proof (derivable_pt_lim_comp _ _ _ _ _ Hin Hout) as H.
  replace (dlink_elt 10 x)
    with (/ (x / (1 - x)) * ((1 * (1 - x) - (0 - 1) * x) / Rsqr (1 - x))).
  - exact H.
  - cbn. unfold Rsqr. field. lra.
Qed.

Lemma dlink_log (x : double) :
  0 < x -> derivable_pt_lim (linkfun_elt 20) x (dlink_elt 20 x).
Proof.
  intros H0. replace (dlink_elt 20 x) with (/ x) by (cbn; field; lra).
  now apply derivable_pt_lim_ln.
Qed.

Lemma dlink_identity (x : double) :
  derivable_pt_lim (linkfun_elt 30) x (dlink_elt 30 x).
Proof. apply derivable_pt_lim_id. Qed.

Lemma dlink_inverse (x : double) :
  x <> 0 -> derivable_pt_lim (linkfun_elt 40) x (dlink_elt 40 x).
Proof.
  intros H0.
  pose proof (derivable_pt_lim_div (fct_cte 1) id x 0 1
                (derivable_pt_lim_const 1 x) (derivable_pt_lim_id x) H0) as H.
  replace (dlink_elt 40 x) with ((0 * id x - 1 * fct_cte 1 x) / Rsqr (id x)).
  - exact H.
  - cbn. unfold Rsqr, fct_cte, id. now field.
Qed.

(** For the complementary log-log link the slope of [linkfun] is the
    opposite of what [dlink] returns. *)
Lemma dlink_cloglog_opposite (x : double) :
  0 < x < 1 -> derivable_pt_lim (linkfun_elt 12) x (- dlink_elt 12 x).
Proof.
  intros [H0 H1].
  assert (Hl : ln (1 - x) < 0) by (apply ln_neg; lra).
  assert (Hsub : derivable_pt_lim (fct_cte 1 - id)%F x (0 - 1)).
  { apply derivable_pt_lim_minus;
      [apply derivable_pt_lim_const | apply derivable_pt_lim_id]. }
  assert (Hln : derivable_pt_lim ln ((fct_cte 1 - id)%F x) (/ (1 - x))).
  { apply derivable_pt_lim_ln. unfold minus_fct, fct_cte, id. lra. }
  pose proof (derivable_pt_lim_comp _ _ _ _ _ Hsub Hln) as Hinner.
  pose proof (derivable_pt_lim_scal _ (- (1)) _ _ Hinner) as Hscal.
  assert (Hout : derivable_pt_lim ln
            (mult_real_fct (- (1)) (comp ln (fct_cte 1 - id)%F) x)
            (/ (- (1) * ln (1 - x)))).
  { apply derivable_pt_lim_ln.
    unfold mult_real_fct, comp, minus_fct, fct_cte, id. lra. }
  pose proof (derivable_pt_lim_comp _ _ _ _ _ Hscal Hout) as H.
  replace (- dlink_elt 12 x)
    with (/ (- (1) * ln (1 - x)) * (- (1) * (/ (1 - x) * (0 - 1)))).
  - exact H.
  - cbn. field. lra.
Qed.

Lemma dlink_cloglog_negative (x : double) :
  0 < x < 1 -> dlink_elt 12 x < 0.
Proof.
  intros [H0 H1]. cbn.
  assert (Hl : ln (1 - x) < 0) by (apply ln_neg; lra).
  assert (Hp : 0 < - ln (1 - x) * (1 - x))
    by (apply Rmult_lt_0_compat; lra).
  replace (1 / (ln (1 - x) * (1 - x)))
    with (- / (- ln (1 - x) * (1 - x))) by (field; lra).
  pose proof (Rinv_0_lt_compat _ Hp). lra.
Qed.


(** ** Properties of the specification *)

Lemma fmap_const_replicate {A : Type} (c : double) (l : list A) :
  (fun _ => c) <$> l = replicate (length l) c.
Proof. induction l as [|a l IH]; cbn; [reflexivity | now rewrite IH]. Qed.

Lemma Forall_fmap_cell (P : double -> Prop) (f : double -> double) (l : vec) :
  (forall x, x ∈ l -> P (f x)) -> Forall P (f <$> l).
Proof.
  intros H. apply Forall_forall. intros v Hv.
  apply list_elem_of_fmap in Hv as (x & -> & Hx). now apply H.
Qed.

Lemma Forall2_fmap_cell (Q : double -> double -> Prop) (f : double -> double)
  (l : vec) :
  (forall x, Q x (f x)) -> Forall2 Q l (f <$> l).
Proof. intros H. induction l; cbn; constructor; auto. Qed.

Lemma valid_binomial_true x :
  cell_true (valid_binomial x) <-> 1/10000 < x < 9999/10000.
Proof.
  unfold valid_binomial. rewrite cell_true_of_bool, andb_true_iff.
  rewrite dgt_true, dlt_true. intuition lra.
Qed.

Lemma valid_poisson_true x : cell_true (valid_poisson x) <-> 1/10000 < x.
Proof.
  unfold valid_poisson. rewrite cell_true_of_bool, dgt_true. intuition lra.
Qed.

Lemma valid_gamma_true x : cell_true (valid_gamma x) <-> 1/1000 < x.
Proof.
  unfold valid_gamma. rewrite cell_true_of_bool, dgt_true. intuition lra.
Qed.

Lemma of_bool_flag b : of_bool b = 1 \/ of_bool b = 0.
Proof. destruct b; auto. Qed.

Lemma adjust_binomial_range x : 1/1000 <= adjust_binomial x <= 999/1000.
Proof. unfold adjust_binomial. cmp; lra. Qed.

Lemma adjust_low_range x : 1/1000 <= adjust_low x.
Proof. unfold adjust_low. cmp; lra. Qed.

(** C5: for each recognised family [muvalid] returns a parallel vector of
    flags, and the flag of a cell is true exactly when the cell lies strictly
    inside the family's open interval: (0.0001, 0.9999) for Binomial,
    (0.0001, oo) for Poisson, (0.001, oo) for Gamma; every Gaussian cell is
    flagged true. *)
Theorem muvalid_open_interval (uninit : string -> nat -> double) (mu : vec) :
  (exists valid, muvalid uninit bin mu = Ok valid /\
     flags_by (fun x => 1/10000 < x < 9999/10000) mu valid) /\
  (exists valid, muvalid uninit pois mu = Ok valid /\
     flags_by (fun x => 1/10000 < x) mu valid) /\
  (exists valid, muvalid uninit Gamma mu = Ok valid /\
     flags_by (fun x => 1/1000 < x) mu valid) /\
  (exists valid, muvalid uninit gaus mu = Ok valid /\
     flags_by (fun _ => True) mu valid).
Proof.
  repeat split.
  - eexists. split; [apply muvalid_binomial|].
    apply Forall2_fmap_cell. intros x.
    split; [apply of_bool_flag | apply valid_binomial_true].
  - eexists. split; [apply muvalid_poisson|].
    apply Forall2_fmap_cell. intros x.
    split; [apply of_bool_flag | apply valid_poisson_true].
  - eexists. split; [apply muvalid_gamma|].
    apply Forall2_fmap_cell. intros x.
    split; [apply of_bool_flag | apply valid_gamma_true].
  - eexists. split; [apply muvalid_gaussian|].
    apply Forall2_fmap_cell. intros x. split; [now left|].
    unfold cell_true. split; [trivial | intros _; lra].
Qed.

(** C6: for each recognised family [mu_adjust] returns a vector of the same
    length: a Binomial cell is clamped into [0.001, 0.999], a Poisson or a
    Gamma cell is clamped from below at 0.001, cells in range are returned
    unchanged, and a Gaussian vector is returned as it is. *)
Theorem mu_adjust_clamps (mu : vec) :
  (exists out, mu_adjust bin mu = Ok out /\
     Forall2 (clamped_into (1/1000) (999/1000)) mu out) /\
  (exists out, mu_adjust pois mu = Ok out /\
     Forall2 (clamped_low (1/1000)) mu out) /\
  (exists out, mu_adjust Gamma mu = Ok out /\
     Forall2 (clamped_low (1/1000)) mu out) /\
  mu_adjust gaus mu = Ok mu.
Proof.
  repeat split.
  - eexists. split; [apply mu_adjust_binomial|].
    apply Forall2_fmap_cell. intros x.
    unfold clamped_into, adjust_binomial. cmp; repeat split; intros; lra.
  - eexists. split; [apply mu_adjust_poisson|].
    apply Forall2_fmap_cell. intros x.
    unfold clamped_low, adjust_low. cmp; repeat split; intros; lra.
  - eexists. split; [apply mu_adjust_gamma|].
    apply Forall2_fmap_cell. intros x.
    unfold clamped_low, adjust_low. cmp; repeat split; intros; lra.
Qed.

Lemma clamped_cells_valid_all uninit family (mu : vec) (f g : double -> double) :
  mu_adjust family mu = Ok (f <$> mu) ->
  (forall adj : vec, muvalid uninit family adj = Ok (g <$> adj)) ->
  (forall x, cell_true (g (f x))) ->
  clamped_cells_valid uninit family mu.
Proof.
  intros Hadj Hval Hok. exists (f <$> mu), (g <$> (f <$> mu)).
  split; [exact Hadj|]. split; [apply Hval|].
  split; [now rewrite !length_fmap|].
  intros i x a Hx Ha _. rewrite !list_lookup_fmap, Hx. cbn.
  eexists. split; [reflexivity | apply Hok].
Qed.

(** For the Binomial, Poisson and Gaussian families every cell that
    [mu_adjust] changed tests valid under [muvalid]: the bounds of [muvalid]
    (0.0001, 0.9999) lie outside the clamps of [mu_adjust] (0.001, 0.999). *)
Lemma muvalid_after_mu_adjust (uninit : string -> nat -> double) (mu : vec) :
  clamped_cells_valid uninit bin mu /\
  clamped_cells_valid uninit pois mu /\
  clamped_cells_valid uninit gaus mu.
Proof.
  repeat split.
  - apply (clamped_cells_valid_all _ _ _ adjust_binomial valid_binomial).
    + apply mu_adjust_binomial.
    + apply muvalid_binomial.
    + intros x. apply valid_binomial_true.
      pose proof (adjust_binomial_range x). lra.
  - apply (clamped_cells_valid_all _ _ _ adjust_low valid_poisson).
    + apply mu_adjust_poisson.
    + apply muvalid_poisson.
    + intros x. apply valid_poisson_true.
      pose proof (adjust_low_range x). lra.
  - apply (clamped_cells_valid_all _ _ _ (fun x => x) (fun _ => 1)).
    + rewrite mu_adjust_gaussian. f_equal. symmetry. apply list_fmap_id.
    + apply muvalid_gaussian.
    + intros _. unfold cell_true. lra.
Qed.

(** C1 at family Gamma and mu = [0]: [mu_adjust] clamps the cell to 0.001,
    the bound of [muvalid] for Gamma is the same 0.001 and the comparison is
    strict, so the clamped cell is flagged 0, that is, not valid. *)
Theorem gamma_clamp_tests_invalid :
  mu_adjust Gamma [0] = Ok [1/1000] /\
  muvalid zero_fill Gamma [1/1000] = Ok [0] /\
  ~ cell_true 0.
Proof.
  split; [|split].
  - rewrite mu_adjust_gamma. cbn. unfold adjust_low. cmp; [reflexivity | lra].
  - rewrite muvalid_gamma. cbn. unfold valid_gamma. cmp; [lra | reflexivity].
  - unfold cell_true. intros H. now apply H.
Qed.

(** C7: [varfun] returns the variance function of the family in every cell:
    mu (1 - mu) for Binomial, mu for Poisson, the constant 1 for Gaussian
    whatever the vector holds, mu^2 for Gamma. *)
Theorem varfun_cells (uninit : string -> nat -> double) (mu : vec) :
  varfun uninit bin mu = Ok ((fun x => x * (1 - x)) <$> mu) /\
  varfun uninit pois mu = Ok mu /\
  varfun uninit gaus mu = Ok (replicate (length mu) 1) /\
  varfun uninit Gamma mu = Ok ((fun x => x * x) <$> mu).
Proof.
  unfold varfun. tags. repeat split; f_equal; cellwise; try reflexivity.
  apply fmap_const_replicate.
Qed.

Lemma linkfun_elt_default link x :
  link <> 10%Z -> link <> 12%Z -> link <> 20%Z -> link <> 30%Z ->
  link <> 40%Z -> linkfun_elt link x = 0.
Proof.
  intros. unfold linkfun_elt. switch_cases link; congruence.
Qed.

Lemma dlink_elt_default link x :
  link <> 10%Z -> link <> 12%Z -> link <> 20%Z -> link <> 30%Z ->
  link <> 40%Z -> dlink_elt link x = 0.
Proof.
  intros. unfold dlink_elt. switch_cases link; congruence.
Qed.

Lemma invlink_elt_default link x :
  link <> 10%Z -> link <> 12%Z -> link <> 20%Z -> link <> 30%Z ->
  link <> 40%Z -> invlink_elt link x = 0.
Proof.
  intros. unfold invlink_elt. switch_cases link; congruence.
Qed.

Lemma fmap_zero (f : double -> double) (l : vec) :
  (forall x, f x = 0) -> f <$> l = replicate (length l) 0.
Proof.
  intros H. rewrite <- fmap_const_replicate. now apply list_fmap_ext.
Qed.

(** C8: for the probit code 11 and for every code that is not a link of the
    switch, [linkfun], [dlink] and [invlink] return without an error the
    all-zero vector of the length of their input. *)
Theorem unimplemented_link_zero (uninit : string -> nat -> double)
  (link : Z) (v : vec) :
  link <> 10%Z -> link <> 12%Z -> link <> 20%Z -> link <> 30%Z ->
  link <> 40%Z ->
  linkfun uninit link v = replicate (length v) 0 /\
  dlink uninit link v = replicate (length v) 0 /\
  invlink uninit link v = replicate (length v) 0.
Proof.
  intros H10 H12 H20 H30 H40.
  rewrite linkfun_cells, dlink_cells, invlink_cells.
  repeat split; apply fmap_zero; intros x.
  - now apply linkfun_elt_default.
  - now apply dlink_elt_default.
  - now apply invlink_elt_default.
Qed.

Lemma unimplemented_link_zero_probit :
  linkfun zero_fill 11 [1/2; 3] = [0; 0] /\
  dlink zero_fill 11 [1/2; 3] = [0; 0] /\
  invlink zero_fill 11 [1/2; 3] = [0; 0].
Proof.
  apply (unimplemented_link_zero zero_fill 11 [1/2; 3]); discriminate.
Defined.

(** C9: for a family tag that is none of the four, [muvalid], [mu_adjust]
    and [varfun] stop with the message that starts with "invalid family",
    and [initial_mu] does not fail: it returns the [N] cells that it
    allocated, with the content that they happened to have. *)
Theorem unknown_family (uninit : string -> nat -> double)
  (family : string) (mu y : vec) (N : nat) :
  family <> bin -> family <> pois -> family <> gaus -> family <> Gamma ->
  muvalid uninit family mu = Stop msg_invalid_family /\
  mu_adjust family mu = Stop msg_invalid_family /\
  varfun uninit family mu = Stop msg_invalid_family /\
  String.prefix "invalid family" msg_invalid_family = true /\
  exists out : vec,
    initial_mu uninit family y N = Ok out /\ length out = N /\
    forall k, (k < N)%nat -> out !! k = Some (uninit "mu"%string k).
Proof.
  intros Hb Hp Hg HG.
  split; [now apply muvalid_unknown|].
  split; [now apply mu_adjust_unknown|].
  split; [now apply varfun_unknown|].
  split; [reflexivity|].
  exists (alloc uninit "mu" N).
  split; [now apply initial_mu_unknown|].
  split; [apply length_alloc|].
  intros k Hk. unfold alloc. rewrite list_lookup_fmap.
  now rewrite lookup_seq_lt.
Qed.

Lemma unknown_family_negbin :
  muvalid one_fill "negbin" [1/2] = Stop msg_invalid_family /\
  mu_adjust "negbin" [1/2] = Stop msg_invalid_family /\
  varfun one_fill "negbin" [1/2] = Stop msg_invalid_family /\
  String.prefix "invalid family" msg_invalid_family = true /\
  exists out : vec,
    initial_mu one_fill "negbin" [1/2] 1 = Ok out /\ length out = 1%nat /\
    forall k, (k < 1)%nat -> out !! k = Some (one_fill "mu"%string k).
Proof.
  apply (unknown_family one_fill "negbin" [1/2] [1/2] 1); discriminate.
Defined.

(** C10: for a recognised family and responses in the family's domain, the
    vector that [initial_mu] returns is flagged true by [muvalid] in every
    cell. *)
Theorem initial_mu_is_valid (uninit : string -> nat -> double)
  (family : string) (y : vec) :
  recognized family ->
  Forall (response_ok family) y ->
  exists mu valid : vec,
    initial_mu uninit family y (length y) = Ok mu /\
    muvalid uninit family mu = Ok valid /\
    length valid = length y /\
    Forall cell_true valid.
Proof.
  intros Hfam Hy.
  destruct Hfam as [-> | [-> | [-> | ->]]].
  - exists (start_binomial <$> y), (valid_binomial <$> (start_binomial <$> y)).
    split; [|split; [apply muvalid_binomial|split; [now rewrite !length_fmap|]]].
    + apply initial_mu_binomial_ok. eapply Forall_impl; [exact Hy|].
      intros x [[_ H] | [[H _] | [H | [H _]]]]; try discriminate H. exact H.
    + rewrite <- list_fmap_compose. apply Forall_fmap_cell. intros x Hx.
      pose proof (proj1 (Forall_forall _ _) Hy x Hx)
        as [[_ H] | [[H _] | [H | [H _]]]]; try discriminate H.
      apply valid_binomial_true. unfold start_binomial. cbn. lra.
  - exists (start_shifted <$> y), (valid_poisson <$> (start_shifted <$> y)).
    split; [|split; [apply muvalid_poisson|split; [now rewrite !length_fmap|]]].
    + apply initial_mu_poisson_ok. eapply Forall_impl; [exact Hy|].
      intros x [[H _] | [[_ H] | [H | [H _]]]]; try discriminate H. exact H.
    + rewrite <- list_fmap_compose. apply Forall_fmap_cell. intros x Hx.
      pose proof (proj1 (Forall_forall _ _) Hy x Hx)
        as [[H _] | [[_ H] | [H | [H _]]]]; try discriminate H.
      apply valid_poisson_true. unfold start_shifted. cbn. lra.
  - exists y, ((fun _ => 1) <$> y).
    split; [apply initial_mu_gaussian_ok|].
    split; [apply muvalid_gaussian|]. split; [now rewrite length_fmap|].
    apply Forall_fmap_cell. intros x _. unfold cell_true. lra.
  - exists (start_shifted <$> y), (valid_gamma <$> (start_shifted <$> y)).
    split; [|split; [apply muvalid_gamma|split; [now rewrite !length_fmap|]]].
    + apply initial_mu_gamma_ok. eapply Forall_impl; [exact Hy|].
      intros x [[H _] | [[H _] | [H | [_ H]]]]; try discriminate H. exact H.
    + rewrite <- list_fmap_compose. apply Forall_fmap_cell. intros x Hx.
      pose proof (proj1 (Forall_forall _ _) Hy x Hx)
        as [[H _] | [[H _] | [H | [_ H]]]]; try discriminate H.
      apply valid_gamma_true. unfold start_shifted. cbn. lra.
Qed.

Lemma initial_mu_is_valid_binomial :
  exists mu valid : vec,
    initial_mu zero_fill bin [0; 1] (length [0; 1]) = Ok mu /\
    muvalid zero_fill bin mu = Ok valid /\
    length valid = length [0; 1] /\
    Forall cell_true valid.
Proof.
  apply (initial_mu_is_valid zero_fill bin [0; 1]).
  - left. reflexivity.
  - constructor; [left; split; [reflexivity | lra] |].
    constructor; [left; split; [reflexivity | lra] |].
    constructor.
Defined.

(** C4 as it is written names messages that the code does not print: a
    Binomial response above 1 stops with "# of success is larger than 1",
    in which the text "# of success larger than 1" does not occur. *)
Lemma binomial_large_message :
  initial_mu zero_fill bin [2] 1 = Stop msg_binomial_large /\
  contains "# of success larger than 1" msg_binomial_large = false /\
  contains "negative values not allowed" msg_binomial_negative = true.
Proof.
  split; [|split; reflexivity].
  destruct (initial_mu_binomial_stop zero_fill [2])
    as (msg & Hrun & [[_ Hneg] | [-> _]]).
  - constructor. lra.
  - apply Exists_cons in Hneg as [Hneg | Hneg]; [lra | inversion Hneg].
  - exact Hrun.
Qed.

(** ** The link triad: round trip and slope *)

Lemma derivable_pt_lim_ext (f g : R -> R) (x l : R) :
  (forall t, f t = g t) -> derivable_pt_lim f x l -> derivable_pt_lim g x l.
Proof.
  intros Hfg Hf eps Heps. destruct (Hf eps Heps) as [delta Hd].
  exists delta. intros h Hh Hlt. rewrite <- !Hfg. now apply Hd.
Qed.

Lemma cell_fun_linkfun uninit link x :
  cell_fun (linkfun uninit link) x = linkfun_elt link x.
Proof. unfold cell_fun. now rewrite linkfun_cells. Qed.

Lemma cell_fun_dlink uninit link x :
  cell_fun (dlink uninit link) x = dlink_elt link x.
Proof. unfold cell_fun. now rewrite dlink_cells. Qed.

Lemma fmap_cell_id (f : double -> double) (l : vec) :
  Forall (fun x => f x = x) l -> f <$> l = l.
Proof.
  induction 1 as [|x l Hx _ IH]; cbn; [reflexivity|]. now rewrite Hx, IH.
Qed.

(** X1: the round trip holds for the logit, cloglog, log and identity links:
    invlink(link, linkfun(link, mu)) is mu for means inside the domain of
    the link. *)
Lemma roundtrip_links (uninit : string -> nat -> double) (mu : vec) :
  (Forall (fun x => 0 < x < 1) mu ->
     invlink uninit 10 (linkfun uninit 10 mu) = mu) /\
  (Forall (fun x => 0 < x < 1) mu ->
     invlink uninit 12 (linkfun uninit 12 mu) = mu) /\
  (Forall (fun x => 0 < x) mu ->
     invlink uninit 20 (linkfun uninit 20 mu) = mu) /\
  invlink uninit 30 (linkfun uninit 30 mu) = mu.
Proof.
  rewrite !invlink_cells, !linkfun_cells, !fmap_fmap.
  repeat split; intros; apply fmap_cell_id.
  - eapply Forall_impl; [eassumption|]. apply roundtrip_logit.
  - eapply Forall_impl; [eassumption|]. apply roundtrip_cloglog.
  - eapply Forall_impl; [eassumption|]. apply roundtrip_log.
  - apply Forall_forall. intros x _. apply roundtrip_identity.
Qed.

(** For the inverse link the round trip returns the opposite vector. *)
Lemma roundtrip_inverse_opposite (uninit : string -> nat -> double) (mu : vec) :
  Forall (fun x => 0 < x) mu ->
  invlink uninit 40 (linkfun uninit 40 mu) = Ropp <$> mu.
Proof.
  intros H. rewrite invlink_cells, linkfun_cells, fmap_fmap.
  apply Forall_fmap_ext_1. eapply Forall_impl; [exact H|].
  intros x Hx. apply roundtrip_inverse. lra.
Qed.

(** C2 at link 40 and mu = [2]: [linkfun] gives [1/2] and [invlink] takes it
    to [-2], not back to [2]. *)
Theorem roundtrip_inverse_link (uninit : string -> nat -> double) :
  linkfun uninit 40 [2] = [1/2] /\
  invlink uninit 40 (linkfun uninit 40 [2]) = [-2].
Proof.
  split.
  - rewrite linkfun_cells. reflexivity.
  - rewrite roundtrip_inverse_opposite; [reflexivity|].
    constructor; [lra | constructor].
Qed.

(** X3: [dlink] is the derivative of [linkfun] for the logit, log, identity
    and inverse links at every mean inside the domain of the link. *)
Lemma dlink_slope_links (uninit : string -> nat -> double) (x : double) :
  (0 < x < 1 ->
     derivable_pt_lim (cell_fun (linkfun uninit 10)) x
       (cell_fun (dlink uninit 10) x)) /\
  (0 < x ->
     derivable_pt_lim (cell_fun (linkfun uninit 20)) x
       (cell_fun (dlink uninit 20) x)) /\
  derivable_pt_lim (cell_fun (linkfun uninit 30)) x
    (cell_fun (dlink uninit 30) x) /\
  (0 < x ->
     derivable_pt_lim (cell_fun (linkfun uninit 40)) x
       (cell_fun (dlink uninit 40) x)).
Proof.
  rewrite !cell_fun_dlink.
  repeat split; intros;
    (eapply derivable_pt_lim_ext;
      [intros t; symmetry; apply cell_fun_linkfun|]).
  - now apply dlink_logit.
  - now apply dlink_log.
  - apply dlink_identity.
  - apply dlink_inverse. lra.
Qed.

(** C3 at link 12 and mu = [1/2]: the cell [d] that [dlink] returns is
    negative, the slope of [linkfun] there is [- d], and so [d] is not the
    slope. *)
Theorem dlink_cloglog_slope (uninit : string -> nat -> double) :
  exists d,
    dlink uninit 12 [1/2] = [d] /\ d < 0 /\
   derivable_pt_lim (cell_fun (linkfun uninit 12)) (1/2) (- d) /\
   ~ derivable_pt_lim (cell_fun (linkfun uninit 12)) (1/2) d.
Proof.
  assert (Hx : 0 < 1/2 < 1) by lra.
  pose proof (dlink_cloglog_negative _ Hx) as Hneg.
  assert (Hslope : derivable_pt_lim (cell_fun (linkfun uninit 12)) (1/2)
                     (- dlink_elt 12 (1/2))).
  { eapply derivable_pt_lim_ext;
      [intros t; symmetry; apply cell_fun_linkfun|].
    now apply dlink_cloglog_opposite. }
  exists (dlink_elt 12 (1/2)).
  split; [now rewrite dlink_cells|]. split; [exact Hneg|].
  split; [exact Hslope|].
  intros Hd. pose proof (uniqueness_limite _ _ _ _ Hd Hslope). lra.
Qed.

(** * Further properties of the kernels *)

(** ** Loops, once more *)

Lemma loop_from_ext_range (b1 b2 : nat -> vec -> result vec) n :
  forall i (acc : vec),
  (forall j (acc' : vec), (i <= j < i + n)%nat -> b1 j acc' = b2 j acc') ->
  loop_from b1 i n acc = loop_from b2 i n acc.
Proof.
  induction n as [|n IH]; intros i acc H; [reflexivity|].
  cbn [loop_from]. rewrite (H i acc) by lia.
  destruct (b2 i acc) as [acc1 | msg |]; cbn; try reflexivity.
  apply IH. intros j acc' Hj. apply H. lia.
Qed.

Lemma loop_from_split body n1 n2 :
  forall i (acc : vec),
  loop_from body i (n1 + n2) acc
  = acc' ← loop_from body i n1 acc; loop_from body (i + n1) n2 acc'.
Proof.
  induction n1 as [|n1 IH]; intros i acc.
  - cbn. now rewrite Nat.add_0_r.
  - cbn [Nat.add loop_from].
    destruct (body i acc) as [acc1 | msg |]; cbn; try reflexivity.
    rewrite IH. now replace (S i + n1)%nat with (i + S n1)%nat by lia.
Qed.

(** Two runs of a loop whose body fills cell [j] with a value that does not
    depend on the vector end alike once every cell has been filled. *)
Lemma loop_from_agree body n :
  forall i (acc1 acc2 : vec),
  length acc1 = length acc2 -> (i + n)%nat = length acc1 ->
  take i acc1 = take i acc2 ->
  (forall j (a1 a2 : vec), (j < length a1)%nat -> length a1 = length a2 ->
     (exists msg, body j a1 = Stop msg /\ body j a2 = Stop msg) \/
     (body j a1 = Fault /\ body j a2 = Fault) \/
     (exists v, body j a1 = Ok (<[j := v]> a1) /\
                body j a2 = Ok (<[j := v]> a2))) ->
  loop_from body i n acc1 = loop_from body i n acc2.
Proof.
  induction n as [|n IH]; intros i acc1 acc2 Hlen Hn Htake Hbody.
  - cbn. f_equal. rewrite Nat.add_0_r in Hn.
    rewrite <- (take_ge acc1 i), <- (take_ge acc2 i) by lia. exact Htake.
  - cbn [loop_from].
    destruct (Hbody i acc1 acc2) as
      [(msg & -> & ->) | [[-> ->] | (v & -> & ->)]]; try lia;
      try reflexivity.
    cbn. apply IH.
    + now rewrite !length_insert.
    + rewrite length_insert. lia.
    + apply list_eq. intros j. rewrite !lookup_take.
      destruct (decide (j < S i)%nat) as [Hj|Hj]; [|reflexivity].
      destruct (decide (j = i)) as [->|Hne].
      * rewrite !list_lookup_insert_eq by lia. reflexivity.
      * rewrite !list_lookup_insert_ne by lia.
        assert (Hl : take i acc1 !! j = take i acc2 !! j) by now rewrite Htake.
        rewrite !lookup_take in Hl.
        destruct (decide (j < i)%nat); [exact Hl | lia].
    + exact Hbody.
Qed.

(** ** [initial_mu] as one loop *)

Lemma at_take (y : vec) N j : (j < N)%nat -> at_ (take N y) j = at_ y j.
Proof. intros H. unfold at_. now rewrite lookup_take_lt. Qed.

Section InitialMuLoop.

Variable uninit : string -> nat -> double.

Lemma initial_mu_loop family (y : vec) N :
  recognized family ->
  initial_mu uninit family y N
  = for_loop N (check_store family y) (alloc uninit "mu" N).
Proof.
  intros [-> | [-> | [-> | ->]]]; unfold initial_mu, for_loop; tags;
    apply loop_from_ext_range; intros j acc _;
    unfold check_store, check_response; tags;
    destruct (at_ y j) as [x | msg |]; cbn; try reflexivity;
    cmp; reflexivity.
Qed.

Lemma check_response_ok family x :
  recognized family -> response_ok family x ->
  exists v, check_response family x = Ok v.
Proof.
  intros Hfam Hx. unfold check_response.
  destruct Hfam as [-> | [-> | [-> | ->]]]; tags;
    destruct Hx as [[H Hx] | [[H Hx] | [H | [H Hx]]]]; try discriminate H;
    cmp; try lra; eauto.
Qed.

(** The loop runs through a prefix of accepted responses. *)
Lemma check_store_prefix family (y : vec) n (acc : vec) :
  (n <= length y)%nat -> (n <= length acc)%nat ->
  (forall j x, (j < n)%nat -> y !! j = Some x ->
     exists v, check_response family x = Ok v) ->
  exists acc' : vec,
    loop_from (check_store family y) 0 n acc = Ok acc' /\
    length acc' = length acc.
Proof.
  intros Hy Hacc Hok.
  destruct (loop_from_cells
    (fun j _ => match y !! j with
                | Some x => match check_response family x with
                            | Ok v => v
                            | _ => 0
                            end
                | None => 0
                end)
    (check_store family y) n 0%nat acc) as (acc' & Hrun & Hlen & _);
    [lia | | eauto].
  intros j d acc' Hj Hd.
  destruct (lookup_lt_is_Some_2 y j) as [x Hx]; [lia|].
  destruct (Hok j x) as [v Hv]; [lia | exact Hx |].
  unfold check_store. rewrite (at_Some _ _ _ Hx). cbn. rewrite Hv. cbn.
  rewrite Hx, Hv. apply (set_at_Some _ _ _ _ Hd).
Qed.

(** The loop stops at the first response that is not accepted. *)
Lemma check_store_stops family (pre rest : vec) x msg (acc : vec) :
  length acc = length (pre ++ x :: rest) ->
  Forall (fun p => exists v, check_response family p = Ok v) pre ->
  check_response family x = Stop msg ->
  for_loop (length (pre ++ x :: rest)) (check_store family (pre ++ x :: rest))
    acc = Stop msg.
Proof.
  intros Hlen Hpre Hx. unfold for_loop.
  rewrite length_app in *. cbn [length] in *.
  rewrite loop_from_split.
  destruct (check_store_prefix family (pre ++ x :: rest) (length pre) acc)
    as (acc' & -> & Hl).
  - rewrite length_app. cbn. lia.
  - lia.
  - intros j p Hj Hp. rewrite lookup_app_l in Hp by exact Hj.
    apply (Forall_lookup_1 _ _ _ _ Hpre Hp).
  - cbn [mbind result_bind loop_from Nat.add]. unfold check_store.
    rewrite (at_Some (pre ++ x :: rest) (length pre) x)
      by now apply list_lookup_middle.
    cbn. now rewrite Hx.
Qed.

End InitialMuLoop.

(** The first response that Binomial does not accept. *)
Lemma binomial_first_offender (y : vec) :
  Exists (fun x => x < 0 \/ 1 < x) y ->
  exists (pre : vec) (x : double) (rest : vec),
    y = pre ++ x :: rest /\ Forall (fun p => 0 <= p <= 1) pre /\
    (x < 0 \/ 1 < x).
Proof.
  induction y as [|a y IH]; intros Hy; [inversion Hy|].
  destruct (Rlt_dec a 0) as [Hneg|Hneg].
  { exists [], a, y. split; [reflexivity|]. split; [constructor | now left]. }
  destruct (Rlt_dec 1 a) as [Hbig|Hbig].
  { exists [], a, y. split; [reflexivity|]. split; [constructor | now right]. }
  apply Exists_cons in Hy as [Hy|Hy]; [lra|].
  destruct (IH Hy) as (pre & x & rest & -> & Hpre & Hx).
  exists (a :: pre), x, rest. split; [reflexivity|].
  split; [constructor; [lra | exact Hpre] | exact Hx].
Qed.

Lemma initial_mu_binomial_stops_at uninit (pre rest : vec) (x : double) :
  Forall (fun p => 0 <= p <= 1) pre ->
  (x < 0 ->
     initial_mu uninit bin (pre ++ x :: rest) (length (pre ++ x :: rest))
     = Stop msg_binomial_negative) /\
  (1 < x ->
     initial_mu uninit bin (pre ++ x :: rest) (length (pre ++ x :: rest))
     = Stop msg_binomial_large).
Proof.
  intros Hpre. split; intros Hx;
    (rewrite initial_mu_loop by (unfold recognized; auto));
    (apply check_store_stops;
      [ apply length_alloc
      | eapply Forall_impl; [exact Hpre|]; cbn; intros p Hp;
        unfold check_response; tags; cmp; try lra; eauto
      | unfold check_response; tags; cmp; try lra; reflexivity ]).
Qed.

(** C4, as the code has it: [initial_mu] on a response vector of length [N].
    Binomial stops if a response is negative or above 1, with the message of
    the first such response ("negative values not allowed for the Binomial
    family" if it is negative, "# of success is larger than 1" if it is above
    1), and otherwise returns (y + 0.5) / 2 in every cell; Poisson stops if a
    response is negative and otherwise returns y + 0.1; Gaussian returns y;
    Gamma stops if a response is not positive and otherwise returns
    y + 0.1. *)
Theorem initial_mu_contract (uninit : string -> nat -> double) (y : vec) :
  (Exists (fun x => x < 0 \/ 1 < x) y ->
     exists (pre : vec) (x : double) (rest : vec),
       y = pre ++ x :: rest /\ Forall (fun p => 0 <= p <= 1) pre /\
       ((x < 0 /\
         initial_mu uninit bin y (length y) = Stop msg_binomial_negative) \/
        (1 < x /\
         initial_mu uninit bin y (length y) = Stop msg_binomial_large))) /\
  (Forall (fun x => 0 <= x <= 1) y ->
     initial_mu uninit bin y (length y)
     = Ok ((fun x => (x + 5/10) / 2) <$> y)) /\
  (Exists (fun x => x < 0) y ->
     initial_mu uninit pois y (length y) = Stop msg_poisson_negative) /\
  (Forall (fun x => 0 <= x) y ->
     initial_mu uninit pois y (length y) = Ok ((fun x => x + 1/10) <$> y)) /\
  initial_mu uninit gaus y (length y) = Ok y /\
  (Exists (fun x => x <= 0) y ->
     exists msg, initial_mu uninit Gamma y (length y) = Stop msg) /\
  (Forall (fun x => 0 < x) y ->
     initial_mu uninit Gamma y (length y) = Ok ((fun x => x + 1/10) <$> y)).
Proof.
  split.
  { intros Hy.
    destruct (binomial_first_offender y Hy) as (pre & x & rest & -> & Hpre & Hx).
    exists pre, x, rest. split; [reflexivity|]. split; [exact Hpre|].
    destruct (initial_mu_binomial_stops_at uninit pre rest x Hpre) as [Hn Hl].
    destruct Hx as [Hx|Hx]; [left | right]; auto. }
  split; [apply initial_mu_binomial_ok|].
  split; [apply initial_mu_poisson_stop|].
  split; [apply initial_mu_poisson_ok|].
  split; [apply initial_mu_gaussian_ok|].
  split; [|apply initial_mu_gamma_ok].
  intros H. eexists. now apply initial_mu_gamma_stop.
Qed.

(** The two runs that the specification lists,
    [initial_mu("binomial", [0,1], 2)] is [[0.25, 0.75]] and
    [initial_mu("poisson", [-1], 1)] stops, and a run with two offending
    responses: on [[2, -1]] Binomial stops with the message of the first. *)
Lemma initial_mu_contract_runs :
  initial_mu zero_fill bin [0; 1] 2 = Ok [25/100; 75/100] /\
  initial_mu zero_fill pois [-1] 1 = Stop msg_poisson_negative /\
  initial_mu zero_fill bin [2; -1] 2 = Stop msg_binomial_large.
Proof.
  split; [|split].
  - replace [25/100; 75/100] with ((fun x => (x + 5/10) / 2) <$> [0; 1])
      by (cbn; f_equal; [lra | f_equal; lra]).
    apply (proj1 (proj2 (initial_mu_contract zero_fill [0; 1]))).
    constructor; [lra|]. constructor; [lra|]. constructor.
  - apply (proj1 (proj2 (proj2 (initial_mu_contract zero_fill [-1])))).
    constructor. lra.
  - destruct (proj1 (initial_mu_contract zero_fill [2; -1]))
      as (pre & x & rest & Hy & Hpre & [[Hx H] | [Hx H]]).
    + constructor. right. lra.
    + destruct pre as [|p pre]; cbn in Hy.
      * injection Hy as Hx2 _. lra.
      * injection Hy as Hp _. inversion Hpre as [|? ? Hb _]. lra.
    + exact H.
Defined.

(** X13: [initial_mu] stops at the first response that its family does not
    accept, with the message of that response; the responses after it are
    not looked at. *)
Theorem initial_mu_first_offender (uninit : string -> nat -> double)
  (pre rest : vec) (x : double) :
  (Forall (fun p => 0 <= p <= 1) pre -> x < 0 ->
     initial_mu uninit bin (pre ++ x :: rest) (length (pre ++ x :: rest))
     = Stop msg_binomial_negative) /\
  (Forall (fun p => 0 <= p <= 1) pre -> 1 < x ->
     initial_mu uninit bin (pre ++ x :: rest) (length (pre ++ x :: rest))
     = Stop msg_binomial_large) /\
  (Forall (fun p => 0 <= p) pre -> x < 0 ->
     initial_mu uninit pois (pre ++ x :: rest) (length (pre ++ x :: rest))
     = Stop msg_poisson_negative) /\
  (Forall (fun p => 0 < p) pre -> x <= 0 ->
     initial_mu uninit Gamma (pre ++ x :: rest) (length (pre ++ x :: rest))
     = Stop msg_gamma_nonpositive).
Proof.
  repeat split; intros Hpre Hx;
    (rewrite initial_mu_loop by (unfold recognized; auto));
    (apply check_store_stops;
      [ apply length_alloc
      | eapply Forall_impl; [exact Hpre|]; cbn; intros p Hp;
        unfold check_response; tags; cmp; try lra; eauto
      | unfold check_response; tags; cmp; try lra; reflexivity ]).
Qed.

(** X14: [initial_mu] uses the first [N] responses only: the responses from
    index [N] on do not change the result. *)
Theorem initial_mu_first_N (uninit : string -> nat -> double)
  (family : string) (y : vec) (N : nat) :
  initial_mu uninit family y N = initial_mu uninit family (take N y) N.
Proof.
  unfold initial_mu, for_loop.
  repeat match goal with
  | |- context [strcmp0 family ?t] => destruct (strcmp0 family t)
  end; try reflexivity;
  apply loop_from_ext_range; intros j acc Hj;
  rewrite at_take by lia; reflexivity.
Qed.

(** X15: with more cells asked for than there are responses, and every response
    accepted, the loop of [initial_mu] reads past the end of [y]. *)
Theorem initial_mu_past_the_end (uninit : string -> nat -> double)
  (family : string) (y : vec) (N : nat) :
  recognized family ->
  Forall (response_ok family) y ->
  (length y < N)%nat ->
  initial_mu uninit family y N = Fault.
Proof.
  intros Hfam Hy HN. rewrite initial_mu_loop by exact Hfam. unfold for_loop.
  replace N with (length y + S (N - length y - 1))%nat at 1 by lia.
  rewrite loop_from_split.
  destruct (check_store_prefix family y (length y) (alloc uninit "mu" N))
    as (acc' & -> & Hl).
  - lia.
  - rewrite length_alloc. lia.
  - intros j x _ Hx. apply check_response_ok; [exact Hfam|].
    apply (Forall_lookup_1 _ _ _ _ Hy Hx).
  - cbn [mbind result_bind loop_from Nat.add]. unfold check_store, at_.
    now rewrite (lookup_ge_None_2 y (length y)) by lia.
Qed.

Lemma initial_mu_past_the_end_run :
  initial_mu zero_fill pois [3] 2 = Fault.
Proof.
  apply (initial_mu_past_the_end zero_fill pois [3] 2).
  - right. left. reflexivity.
  - constructor; [|constructor]. right. left. split; [reflexivity | lra].
  - cbn. lia.
Defined.

(** X12: for a recognised family the result of [initial_mu] does not depend on
    what the freshly allocated vector held. *)
Theorem initial_mu_ignores_fresh_memory (u1 u2 : string -> nat -> double)
  (family : string) (y : vec) (N : nat) :
  recognized family ->
  initial_mu u1 family y N = initial_mu u2 family y N.
Proof.
  intros Hfam. rewrite !initial_mu_loop by exact Hfam. unfold for_loop.
  apply loop_from_agree.
  - now rewrite !length_alloc.
  - now rewrite length_alloc.
  - reflexivity.
  - intros j a1 a2 Hj Hlen. unfold check_store.
    destruct (at_ y j) as [x | msg |]; cbn; [| eauto | eauto].
    destruct (check_response family x) as [v | msg |]; cbn; [| eauto | eauto].
    right. right. exists v. unfold set_at.
    rewrite !bool_decide_eq_true_2 by lia. auto.
Qed.

Lemma initial_mu_ignores_fresh_memory_run :
  initial_mu zero_fill Gamma [2; -1] 2 = initial_mu one_fill Gamma [2; -1] 2.
Proof.
  apply (initial_mu_ignores_fresh_memory zero_fill one_fill Gamma [2; -1] 2).
  right. right. right. reflexivity.
Defined.

(** ** [mu_adjust], [muvalid] and [varfun] together *)

Lemma adjust_binomial_fixed x :
  1/1000 <= x <= 999/1000 -> adjust_binomial x = x.
Proof. intros H. unfold adjust_binomial. cmp; lra. Qed.

Lemma adjust_low_fixed x : 1/1000 <= x -> adjust_low x = x.
Proof. intros H. unfold adjust_low. cmp; lra. Qed.

Lemma mu_adjust_cells family (mu : vec) :
  recognized family ->
  exists f : double -> double,
    (forall m : vec, mu_adjust family m = Ok (f <$> m)) /\
    (forall x, f (f x) = f x) /\
    (forall x, family = gaus \/ 1/1000 <= f x) /\
    (forall x, family = bin -> f x <= 999/1000).
Proof.
  intros [-> | [-> | [-> | ->]]].
  - exists adjust_binomial. split; [apply mu_adjust_binomial|].
    split; [intros x; apply adjust_binomial_fixed, adjust_binomial_range|].
    split; intros x; [right|intros _]; apply adjust_binomial_range.
  - exists adjust_low. split; [apply mu_adjust_poisson|].
    split; [intros x; apply adjust_low_fixed, adjust_low_range|].
    split; intros x; [right; apply adjust_low_range | discriminate].
  - exists (fun x => x).
    split; [intros m; rewrite mu_adjust_gaussian, list_fmap_id; reflexivity|].
    split; [reflexivity|]. split; intros x; [now left | discriminate].
  - exists adjust_low. split; [apply mu_adjust_gamma|].
    split; [intros x; apply adjust_low_fixed, adjust_low_range|].
    split; intros x; [right; apply adjust_low_range | discriminate].
Qed.

(** X7: for Binomial, Poisson and Gaussian and a vector of numbers (no cell
    is a NaN) every cell of the vector that [mu_adjust] returns is flagged
    valid by [muvalid]. *)
Theorem mu_adjust_then_muvalid (uninit : string -> nat -> double) (mu : vec) :
  adjusted_all_valid uninit bin mu /\
  adjusted_all_valid uninit pois mu /\
  adjusted_all_valid uninit gaus mu.
Proof.
  repeat split.
  - exists (adjust_binomial <$> mu), (valid_binomial <$> (adjust_binomial <$> mu)).
    split; [apply mu_adjust_binomial|]. split; [apply muvalid_binomial|].
    split; [now rewrite !length_fmap|].
    rewrite <- list_fmap_compose. apply Forall_fmap_cell. intros x _. cbn.
    apply valid_binomial_true. pose proof (adjust_binomial_range x). lra.
  - exists (adjust_low <$> mu), (valid_poisson <$> (adjust_low <$> mu)).
    split; [apply mu_adjust_poisson|]. split; [apply muvalid_poisson|].
    split; [now rewrite !length_fmap|].
    rewrite <- list_fmap_compose. apply Forall_fmap_cell. intros x _. cbn.
    apply valid_poisson_true. pose proof (adjust_low_range x). lra.
  - exists mu, ((fun _ => 1) <$> mu).
    split; [apply mu_adjust_gaussian|]. split; [apply muvalid_gaussian|].
    split; [now rewrite length_fmap|].
    apply Forall_fmap_cell. intros x _. unfold cell_true. lra.
Qed.

(** X8: [mu_adjust] is idempotent: adjusting an adjusted vector returns it
    unchanged. *)
Theorem mu_adjust_idempotent (family : string) (mu : vec) :
  recognized family ->
  exists adj : vec,
    mu_adjust family mu = Ok adj /\ mu_adjust family adj = Ok adj.
Proof.
  intros Hfam. destruct (mu_adjust_cells family mu Hfam) as (f & Hf & Hff & _).
  exists (f <$> mu). split; [apply Hf|]. rewrite Hf. f_equal.
  rewrite <- list_fmap_compose. apply list_fmap_ext. intros i x _. apply Hff.
Qed.

Lemma mu_adjust_idempotent_run :
  exists adj : vec,
    mu_adjust bin [0; 1/2; 2] = Ok adj /\ mu_adjust bin adj = Ok adj.
Proof.
  apply (mu_adjust_idempotent bin [0; 1/2; 2]). left. reflexivity.
Defined.

Lemma varfun_recognized uninit family (mu : vec) :
  recognized family ->
  exists g : double -> double,
    varfun uninit family mu = Ok (g <$> mu) /\
    (family = bin -> forall x, g x = x * (1 - x)) /\
    (family = pois -> forall x, g x = x) /\
    (family = gaus -> forall x, g x = 1) /\
    (family = Gamma -> forall x, g x = x * x).
Proof.
  pose proof (varfun_cells uninit mu) as (Hb & Hp & Hg & HG).
  intros [-> | [-> | [-> | ->]]].
  - exists (fun x => x * (1 - x)). split; [exact Hb|].
    repeat split; intros H; try discriminate H; reflexivity.
  - exists (fun x => x). split; [now rewrite list_fmap_id|].
    repeat split; intros H; try discriminate H; reflexivity.
  - exists (fun _ => 1). split; [now rewrite fmap_const_replicate|].
    repeat split; intros H; try discriminate H; reflexivity.
  - exists (fun x => x * x). split; [exact HG|].
    repeat split; intros H; try discriminate H; reflexivity.
Qed.

(** X9: the variance is positive after adjustment: for a recognised family
    and a vector of numbers (no cell is a NaN) every cell of [varfun] on the
    vector that [mu_adjust] returns is above zero. *)
Theorem varfun_positive_after_mu_adjust (uninit : string -> nat -> double)
  (family : string) (mu : vec) :
  recognized family ->
  exists adj V : vec,
    mu_adjust family mu = Ok adj /\
    varfun uninit family adj = Ok V /\
    length V = length mu /\
    Forall (fun v => 0 < v) V.
Proof.
  intros Hfam.
  destruct (mu_adjust_cells family mu Hfam) as (f & Hf & _ & Hlo & Hhi).
  destruct (varfun_recognized uninit family (f <$> mu) Hfam)
    as (g & Hg & Hb & Hp & Hgs & HG).
  exists (f <$> mu), (g <$> (f <$> mu)).
  split; [apply Hf|]. split; [exact Hg|].
  split; [now rewrite !length_fmap|].
  rewrite <- list_fmap_compose. apply Forall_fmap_cell. intros x _. cbn.
  destruct Hfam as [-> | [-> | [-> | ->]]].
  - rewrite Hb by reflexivity. specialize (Hhi x eq_refl).
    destruct (Hlo x) as [H | H]; [discriminate H|]. nra.
  - rewrite Hp by reflexivity.
    destruct (Hlo x) as [H | H]; [discriminate H|]. lra.
  - rewrite Hgs by reflexivity. lra.
  - rewrite HG by reflexivity.
    destruct (Hlo x) as [H | H]; [discriminate H|]. nra.
Qed.

Lemma varfun_positive_after_mu_adjust_run :
  exists adj V : vec,
    mu_adjust Gamma [-3; 5] = Ok adj /\
    varfun zero_fill Gamma adj = Ok V /\
    length V = length [-3; 5] /\
    Forall (fun v => 0 < v) V.
Proof.
  apply (varfun_positive_after_mu_adjust zero_fill Gamma [-3; 5]).
  right. right. right. reflexivity.
Defined.

Lemma fmap_Ok_inj (f : double -> double) (mu valid : vec) :
  Ok (f <$> mu) = Ok valid -> valid = f <$> mu.
Proof. now intros [= <-]. Qed.

(** X10: the variance is positive on valid means: if [muvalid] flags every cell
    of [mu], every cell of [varfun] on [mu] is above zero. *)
Theorem varfun_positive_on_valid (uninit : string -> nat -> double)
  (family : string) (mu valid : vec) :
  muvalid uninit family mu = Ok valid ->
  Forall cell_true valid ->
  exists V : vec,
    varfun uninit family mu = Ok V /\
    length V = length mu /\
    Forall (fun v => 0 < v) V.
Proof.
  intros Hval Hall.
  assert (Hfam : recognized family).
  { unfold recognized.
    destruct (decide (family = bin)) as [|Hb]; [auto|].
    destruct (decide (family = pois)) as [|Hp]; [auto|].
    destruct (decide (family = gaus)) as [|Hg]; [auto|].
    destruct (decide (family = Gamma)) as [|HG]; [auto|].
    rewrite muvalid_unknown in Hval by assumption. discriminate Hval. }
  destruct (varfun_recognized uninit family mu Hfam)
    as (g & Hg & Hb & Hp & Hgs & HG).
  exists (g <$> mu). split; [exact Hg|]. split; [apply length_fmap|].
  apply Forall_fmap_cell. intros x Hx.
  apply list_elem_of_lookup_1 in Hx as (i & Hi).
  destruct Hfam as [-> | [-> | [-> | ->]]].
  - rewrite muvalid_binomial in Hval. apply fmap_Ok_inj in Hval. subst valid.
    pose proof (Forall_lookup_1 _ _ i (valid_binomial x) Hall) as Hc.
    rewrite list_lookup_fmap, Hi in Hc. specialize (Hc eq_refl).
    apply valid_binomial_true in Hc. rewrite Hb by reflexivity. nra.
  - rewrite muvalid_poisson in Hval. apply fmap_Ok_inj in Hval. subst valid.
    pose proof (Forall_lookup_1 _ _ i (valid_poisson x) Hall) as Hc.
    rewrite list_lookup_fmap, Hi in Hc. specialize (Hc eq_refl).
    apply valid_poisson_true in Hc. rewrite Hp by reflexivity. lra.
  - rewrite Hgs by reflexivity. lra.
  - rewrite muvalid_gamma in Hval. apply fmap_Ok_inj in Hval. subst valid.
    pose proof (Forall_lookup_1 _ _ i (valid_gamma x) Hall) as Hc.
    rewrite list_lookup_fmap, Hi in Hc. specialize (Hc eq_refl).
    apply valid_gamma_true in Hc. rewrite HG by reflexivity. nra.
Qed.

Lemma varfun_positive_on_valid_run :
  exists V : vec,
    varfun zero_fill bin [1/2] = Ok V /\
    length V = length [1/2] /\
    Forall (fun v => 0 < v) V.
Proof.
  apply (varfun_positive_on_valid zero_fill bin [1/2] [1]).
  - rewrite muvalid_binomial. cbn. unfold valid_binomial.
    cmp; try lra. reflexivity.
  - constructor; [unfold cell_true; lra | constructor].
Defined.

Lemma tag_cases family :
  recognized family \/
  (family <> bin /\ family <> pois /\ family <> gaus /\ family <> Gamma).
Proof.
  unfold recognized.
  destruct (decide (family = bin)); [auto|].
  destruct (decide (family = pois)); [auto|].
  destruct (decide (family = gaus)); [auto|].
  destruct (decide (family = Gamma)); auto.
Qed.

(** X11: [muvalid], [varfun], [linkfun], [dlink] and [invlink] overwrite every
    cell of the vectors they allocate: for every tag, code and input their
    result does not depend on what the fresh memory held. *)
Theorem kernels_ignore_fresh_memory (u1 u2 : string -> nat -> double)
  (family : string) (link : Z) (v : vec) :
  muvalid u1 family v = muvalid u2 family v /\
  varfun u1 family v = varfun u2 family v /\
  linkfun u1 link v = linkfun u2 link v /\
  dlink u1 link v = dlink u2 link v /\
  invlink u1 link v = invlink u2 link v.
Proof.
  split; [|split].
  - destruct (tag_cases family) as [[-> | [-> | [-> | ->]]] | (Hb & Hp & Hg & HG)].
    + now rewrite !muvalid_binomial.
    + now rewrite !muvalid_poisson.
    + now rewrite !muvalid_gaussian.
    + now rewrite !muvalid_gamma.
    + now rewrite !muvalid_unknown.
  - destruct (tag_cases family) as [Hfam | (Hb & Hp & Hg & HG)].
    + pose proof (varfun_cells u1 v) as (Hb1 & Hp1 & Hg1 & HG1).
      pose proof (varfun_cells u2 v) as (Hb2 & Hp2 & Hg2 & HG2).
      destruct Hfam as [-> | [-> | [-> | ->]]]; congruence.
    + now rewrite !varfun_unknown.
  - now rewrite !linkfun_cells, !dlink_cells, !invlink_cells.
Qed.

(** ** The link triad, further *)

(** X5: [dlink] is not zero in any cell where the mean is a finite number
    inside the domain of the link: 0 < mu < 1 for logit and cloglog, mu > 0
    for log, any mu for identity. *)
Theorem dlink_nonzero (uninit : string -> nat -> double) (mu : vec) :
  (Forall (fun x => 0 < x < 1) mu ->
     Forall (fun d => d <> 0) (dlink uninit 10 mu)) /\
  (Forall (fun x => 0 < x < 1) mu ->
     Forall (fun d => d <> 0) (dlink uninit 12 mu)) /\
  (Forall (fun x => 0 < x) mu ->
     Forall (fun d => d <> 0) (dlink uninit 20 mu)) /\
  Forall (fun d => d <> 0) (dlink uninit 30 mu).
Proof.
  rewrite !dlink_cells.
  repeat split; intros; apply Forall_fmap_cell; intros x Hx; cbn.
  - pose proof (proj1 (Forall_forall _ _) H x Hx) as [H0 H1]. cbn in *.
    assert (0 < x * (1 - x)) by nra.
    assert (0 < 1 / (x * (1 - x))) by (apply Rdiv_lt_0_compat; lra). lra.
  - pose proof (proj1 (Forall_forall _ _) H x Hx) as Hb. cbn in Hb.
    pose proof (dlink_cloglog_negative x Hb) as Hn. cbn in Hn. lra.
  - pose proof (proj1 (Forall_forall _ _) H x Hx) as H0. cbn in H0.
    assert (0 < 1 / x) by (apply Rdiv_lt_0_compat; lra). lra.
  - lra.
Qed.

(** X6: the link triad works cell by cell for every code: the result on a
    concatenation is the concatenation of the results, and the result has
    the length of the input. *)
Theorem link_triad_cellwise (uninit : string -> nat -> double)
  (link : Z) (a b : vec) :
  linkfun uninit link (a ++ b)
    = linkfun uninit link a ++ linkfun uninit link b /\
  dlink uninit link (a ++ b) = dlink uninit link a ++ dlink uninit link b /\
  invlink uninit link (a ++ b)
    = invlink uninit link a ++ invlink uninit link b /\
  length (linkfun uninit link a) = length a /\
  length (dlink uninit link a) = length a /\
  length (invlink uninit link a) = length a.
Proof.
  rewrite !linkfun_cells, !dlink_cells, !invlink_cells.
  rewrite !fmap_app, !length_fmap. repeat split.
Qed.
